(** * Sequence generators of [code/detour-group-theory.cpp]

    A shallow embedding of the two generators of the file, the
    [Z256Generator] (additive recurrence modulo 256) and the
    [SerialNumberGenerator] (a linear congruential engine whose draws are
    decomposed into mixed-radix digits), together with the properties the
    specification states about them.

    Conventions.  A C++ [int] is a [Z] kept inside the 32-bit two's
    complement range; operations whose behaviour is undefined in C++ (signed
    overflow, division by zero) return [None].  A [char] is one byte of a
    [string]; its promotion to [int] is the signed one of x86-64 gcc, the
    platform the file names in its first line.

    The comma initialiser of [code/surprising-comma-operator-bug.cpp] and
    the hand-written deep copy of [code/json-ultimate-copy.cpp] follow the
    generators. *)

From Stdlib Require Import ZArith Zdivisibility List ListSet Finite String Ascii.
From Stdlib Require Import Bool Lia.
Import ListNotations.
Local Open Scope Z_scope.

(** ** Undefined behaviour as [option] *)

Definition bind {A B : Type} (m : option A) (k : A -> option B) : option B :=
  match m with
  | Some a => k a
  | None => None
  end.

Notation "x <- m ;; k" := (bind m (fun x => k))
  (at level 61, m at next level, right associativity).
Notation "' p <- m ;; k" := (bind m (fun x => match x with p => k end))
  (at level 61, p pattern, m at next level, right associativity).

(** ** The C++ [int] and [char] of the platform *)

Module CInt.

Definition INT_MIN : Z := -2147483648.
Definition INT_MAX : Z := 2147483647.

Definition in_range (z : Z) : bool := (INT_MIN <=? z) && (z <=? INT_MAX).

(** [a + b] on [int]: overflow is undefined. *)
Definition add (a b : Z) : option Z :=
  if in_range (a + b) then Some (a + b) else None.

(** [a % b] on [int]: truncated remainder; undefined when [b] is zero or
    when the quotient is not representable. *)
Definition rem (a b : Z) : option Z :=
  if (b =? 0) || ((a =? INT_MIN) && (b =? -1)) then None
  else Some (Z.rem a b).

(** [std::div_t]. *)
Record div_t : Type := { quot : Z; rem_ : Z }.

(** [std::div(a, b)]: quotient truncated towards zero and its remainder. *)
Definition div (a b : Z) : option div_t :=
  if (b =? 0) || ((a =? INT_MIN) && (b =? -1)) then None
  else Some {| quot := Z.quot a b; rem_ := Z.rem a b |}.

(** [static_cast<int>(u)] of an unsigned value: reduction modulo 2^32 into
    the signed range. *)
Definition of_unsigned (u : Z) : Z :=
  let w := u mod 4294967296 in
  if w <? 2147483648 then w else w - 4294967296.

End CInt.

Module Char.

(** Integral promotion of a (signed) [char]. *)
Definition to_int (c : ascii) : Z :=
  let n := Z.of_N (N_of_ascii c) in
  if n <? 128 then n else n - 256.

(** Conversion of an [int] to [char]: the value modulo 2^8. *)
Definition of_int (v : Z) : ascii := ascii_of_N (Z.to_N (v mod 256)).

End Char.

(** [std::string::push_back]. *)
Definition push_back (s : string) (c : ascii) : string :=
  (s ++ String c EmptyString)%string.

(** ** Repeated calls of a generator

    [calls next n g] is the effect of calling [next] [n] times in a row on
    the generator [g]: the list of the values returned, in call order, and
    the generator left behind; [None] when one of the calls is undefined. *)

Section Calls.

Context {G R : Type}.
Variable next : G -> option (R * G).

Fixpoint calls (n : nat) (g : G) : option (list R * G) :=
  match n with
  | O => Some ([], g)
  | S n' =>
      '(o, g') <- next g ;;
      '(os, g'') <- calls n' g' ;;
      Some (o :: os, g'')
  end.

End Calls.

(** ** [class Z256Generator] *)

Module Z256Generator.

Record t : Type := { state_ : Z }.

(** [int state_ = 42;] *)
Definition init : t := {| state_ := 42 |}.

(** [state_ = (state_ + 191) % 256; return state_;] *)
Definition next (g : t) : option (Z * t) :=
  s <- CInt.add (state_ g) 191 ;;
  r <- CInt.rem s 256 ;;
  Some (r, {| state_ := r |}).

End Z256Generator.

(** ** [std::linear_congruential_engine<std::uint_fast32_t, 261, 1, 676'000>]

    The engine is the standard library's; it is modelled after its
    definition in the C++ standard: the state is [x], the transition is
    [x := (a * x + c) mod m], a call makes the transition and returns the
    new state, and seeding with [s] sets [x] to [s mod m] unless both
    [c mod m] and [s mod m] are zero, in which case [x] is 1. *)

Module Lcg.

Definition multiplier : Z := 261.
Definition increment : Z := 1.
Definition modulus : Z := 676000.

Record t : Type := { x_ : Z }.

Definition seed (s : Z) : t :=
  if (increment mod modulus =? 0) && (s mod modulus =? 0)
  then {| x_ := 1 |}
  else {| x_ := s mod modulus |}.

(** The transition function on the state. *)
Definition advance (x : Z) : Z := (multiplier * x + increment) mod modulus.

(** [operator()]. *)
Definition call (e : t) : Z * t :=
  let x := advance (x_ e) in (x, {| x_ := x |}).

End Lcg.

(** ** [class SerialNumberGenerator] *)

Module SerialNumberGenerator.

Record t : Type := { lcg_ : Lcg.t }.

(** [Lcg lcg_{123'456};] *)
Definition init : t := {| lcg_ := Lcg.seed 123456 |}.

(** The lambda [add_digit]; the string it captures by reference is threaded
    through. *)
Definition add_digit (serial : string) (val base : Z) (offset : ascii)
  : option (string * Z) :=
  res <- CInt.div val base ;;
  c <- CInt.add (Char.to_int offset) (CInt.rem_ res) ;;
  Some (push_back serial (Char.of_int c), CInt.quot res).

Definition next (g : t) : option (string * t) :=
  let serial := EmptyString in
  let '(r, lcg') := Lcg.call (lcg_ g) in
  let value := CInt.of_unsigned r in
  '(serial, value) <- add_digit serial value 26 "A" ;;
  '(serial, value) <- add_digit serial value 26 "A" ;;
  '(serial, value) <- add_digit serial value 10 "0" ;;
  '(serial, value) <- add_digit serial value 10 "0" ;;
  '(serial, value) <- add_digit serial value 10 "0" ;;
  Some (serial, {| lcg_ := lcg' |}).

End SerialNumberGenerator.

(** ** [test_Z256Generator] and [test_SerialNumberGenerator]

    A [std::set] is a list without duplicates, [insert] adding an element
    that is not yet in it.  A test returns whether its assertion holds. *)

Section Tests.

Context {G R : Type}.
Variable eq_dec : forall a b : R, {a = b} + {a <> b}.
Variable next : G -> option (R * G).

(** [for (int i = 0; i < n; i++) s.insert(g.next());] *)
Fixpoint insert_loop (n : nat) (s : set R) (g : G) : option (set R * G) :=
  match n with
  | O => Some (s, g)
  | S n' =>
      '(v, g') <- next g ;;
      insert_loop n' (set_add eq_dec v s) g'
  end.

End Tests.

Definition test_Z256Generator : option bool :=
  let s := empty_set Z in
  let g := Z256Generator.init in
  '(s, _) <- insert_loop Z.eq_dec Z256Generator.next 256 s g ;;
  Some (Z.of_nat (List.length s) =? 256).

Definition test_SerialNumberGenerator : option bool :=
  let s := empty_set string in
  let g := SerialNumberGenerator.init in
  '(s, _) <-
    insert_loop string_dec SerialNumberGenerator.next (Z.to_nat 676000) s g ;;
  Some (Z.of_nat (List.length s) =? 676000).

(** * [code/surprising-comma-operator-bug.cpp]

    The element type [T] of the templates is a type parameter.  The one
    vector an initialisation writes to is threaded through as the state: the
    pointer [vec] of every [CommaInit] of an expression points to it, and
    the record keeps the index only.  An array element is [None] while it
    holds the indeterminate value a default-initialisation left; a write
    outside the four elements is undefined. *)

Module CommaInitializer.

Section Templates.

Variable T : Type.

(** [struct Vec4]: [T values[4];] *)
Record Vec4 : Type := { values : list (option T) }.

(** [struct CommaInit]: [Vec4<T>* vec; size_t idx;] *)
Record CommaInit : Type := { idx : Z }.

Fixpoint update (i : nat) (x : option T) (l : list (option T))
  : list (option T) :=
  match l, i with
  | [], _ => []
  | _ :: l', O => x :: l'
  | a :: l', S i' => a :: update i' x l'
  end.

(** [values[i] = value] *)
Definition assign (i : Z) (value : T) (v : Vec4) : option Vec4 :=
  if (0 <=? i) && (i <? 4)
  then Some {| values := update (Z.to_nat i) (Some value) (values v) |}
  else None.

(** [Vec4<T> vec;] for a [T] whose default-initialisation gives [d]
    ([None] for an arithmetic type, which is left indeterminate). *)
Definition declare (d : option T) : Vec4 := {| values := repeat d 4 |}.

(** [Vec4::operator<<]: [values[0] = value; return {this, 1};] *)
Definition shl (value : T) (this : Vec4) : option (CommaInit * Vec4) :=
  this <- assign 0 value this ;;
  Some ({| idx := 1 |}, this).

(** [CommaInit::operator,]: [vec->values[idx++] = value; return *this;] *)
Definition comma (this : CommaInit) (value : T) (vec : Vec4)
  : option (CommaInit * Vec4) :=
  vec <- assign (idx this) value vec ;;
  Some ({| idx := (idx this + 1) mod 18446744073709551616 |}, vec).

(** The expression [c, v1, v2, ...] with every comma the overloaded one. *)
Fixpoint commas (vs : list T) (c : CommaInit) (vec : Vec4)
  : option (CommaInit * Vec4) :=
  match vs with
  | [] => Some (c, vec)
  | v :: vs' => '(c, vec) <- comma c v vec ;; commas vs' c vec
  end.

End Templates.

Arguments values {T}.
Arguments assign {T}.
Arguments declare {T}.
Arguments shl {T}.
Arguments comma {T}.
Arguments commas {T}.

End CommaInitializer.

(** * [code/json-ultimate-copy.cpp]

    Of this file the functions that do not go through [nlohmann::json] or
    [std::ranges::to] are embedded.  Every container is a list; [float] is a
    type parameter and [literal] gives the [float] a literal of the source
    denotes.  [operator[]] outside the container is undefined. *)

Module seq1d.

Section Floats.

Variable float : Type.
Variable literal : string -> float.

Definition compute_values : list float :=
  [literal "3"; literal "1"; literal "4"; literal "1"; literal "6"].

(** [return values[1];] *)
Definition summarize_values (values : list float) : option float :=
  nth_error values 1.

(** The vector is built from the range [values.begin(), values.end()]. *)
Definition test : option float :=
  let values := compute_values in
  summarize_values (map (fun x => x) values).

End Floats.

End seq1d.

Module seq3d.

Section Floats.

Variable float : Type.
Variable literal : string -> float.

(** [std::list<std::deque<std::array<float, 3>>>] *)
Definition out_t : Type := list (list (list float)).

(** [std::vector<std::vector<std::vector<float>>>] *)
Definition in_t : Type := list (list (list float)).

Definition compute_values : out_t :=
  [ [ [literal "1.1f"; literal "2.2f"; literal "3.3f"];
      [literal "4.4f"; literal "5.5f"; literal "6.6f"] ];
    [ [literal "11.1f"; literal "22.2f"; literal "33.3f"];
      [literal "44.4f"; literal "55.5f"; literal "66.6f"] ] ].

(** [return values[1][1][1];] *)
Definition summarize_values (values : in_t) : option float :=
  a <- nth_error values 1 ;;
  b <- nth_error a 1 ;;
  nth_error b 1.

(** A reference to an element of a vector is the index of the element; a
    write through the reference modifies the element in place. *)
Fixpoint modify {A : Type} (i : nat) (f : A -> A) (l : list A) : list A :=
  match l, i with
  | [], _ => []
  | a :: l', O => f a :: l'
  | a :: l', S i' => a :: modify i' f l'
  end.

(** [v.emplace_back()]: the vector with a new empty element at its end, and
    the reference to that element. *)
Definition emplace_back {A : Type} (v : list (list A)) : list (list A) * nat :=
  (v ++ [[]], List.length v).

(** [v.push_back(x)] *)
Definition push_back_vec {A : Type} (x : A) (v : list A) : list A := v ++ [x].

(** The three nested loops of [test]; [reserve] changes the capacity of a
    vector only, which is not part of its value. *)
Definition copy_loops (values : out_t) : in_t :=
  let values_copy : in_t := [] in
  fold_left
    (fun values_copy values_sub1 =>
       let '(values_copy, values_copy_sub1) := emplace_back values_copy in
       fold_left
         (fun values_copy values_sub2 =>
            let values_copy_sub2 :=
              List.length (nth values_copy_sub1 values_copy []) in
            let values_copy :=
              modify values_copy_sub1 (fun v => fst (emplace_back v))
                values_copy in
            fold_left
              (fun values_copy value =>
                 modify values_copy_sub1
                   (modify values_copy_sub2 (push_back_vec value))
                   values_copy)
              values_sub2 values_copy)
         values_sub1 values_copy)
    values values_copy.

Definition test : option float :=
  let values := compute_values in
  let values_copy := copy_loops values in
  summarize_values values_copy.

(** The bodies of the three loops, from the innermost one outwards, with
    the references they use as arguments. *)
Definition inner_body (sub1 sub2 : nat) (values_copy : in_t) (value : float)
  : in_t :=
  modify sub1 (modify sub2 (push_back_vec value)) values_copy.

Definition middle_body (sub1 : nat) (values_copy : in_t)
  (values_sub2 : list float) : in_t :=
  fold_left
    (inner_body sub1 (List.length (nth sub1 values_copy [])))
    values_sub2
    (modify sub1 (fun v => fst (emplace_back v)) values_copy).

Definition outer_body (values_copy : in_t) (values_sub1 : list (list float))
  : in_t :=
  fold_left (middle_body (snd (emplace_back values_copy)))
    values_sub1 (fst (emplace_back values_copy)).

End Floats.

End seq3d.

(** * Runs that leave undefined behaviour open

    What a C++ program does once a call is undefined is not determined: in
    [may_call] such a call may return any value and leave any state behind,
    and [may_run next n g os g'] says that [n] calls in a row on [g] may
    return the values [os] and end in [g'].  On a generator that can reach
    an undefined call two runs may differ. *)

Section MayRun.

Context {G R : Type}.
Variable next : G -> option (R * G).

Inductive may_call (g : G) : R -> G -> Prop :=
| call_defined (r : R) (g' : G) : next g = Some (r, g') -> may_call g r g'
| call_undefined (r : R) (g' : G) : next g = None -> may_call g r g'.

Inductive may_run : nat -> G -> list R -> G -> Prop :=
| run_done (g : G) : may_run 0 g [] g
| run_call (n : nat) (g : G) (r : R) (g1 : G) (os : list R) (g2 : G) :
    may_call g r g1 -> may_run n g1 os g2 -> may_run (S n) g (r :: os) g2.

End MayRun.

(** ** Auxiliary definitions for the statements *)

(** The cyclic counter as a transition system: the invariant of its state,
    and what a call returns and leaves behind when nothing is undefined. *)

Module Z256Step.

Import Z256Generator.

Definition Inv (g : t) : Prop := 0 <= state_ g < 256.
Definition out (g : t) : Z := (state_ g + 191) mod 256.
Definition step (g : t) : t := {| state_ := (state_ g + 191) mod 256 |}.

(** The value returned by the [n]-th call ([n >= 1]) on a fresh instance. *)
Definition nth_output (n : nat) : option Z :=
  '(os, _) <- calls next n init ;; nth_error os (pred n).

End Z256Step.

(** Composition of affine maps [x |-> (a * x + b) mod modulus]: the [p]-fold
    iterate of the engine's transition, computed by repeated squaring. *)

Module LcgJump.

Import Lcg.

Definition act (t : Z * Z) (x : Z) : Z := (fst t * x + snd t) mod modulus.

Definition compose (s t : Z * Z) : Z * Z :=
  ((fst s * fst t) mod modulus, (fst s * snd t + snd s) mod modulus).

Fixpoint jump (p : positive) : Z * Z :=
  match p with
  | xH => (multiplier, increment)
  | xO q => let t := jump q in compose t t
  | xI q => let t := jump q in compose (multiplier, increment) (compose t t)
  end.

(** [n] is a period of the orbit of 0. *)
Definition period0 (n : nat) : Prop := Nat.iter n advance 0 = 0.

End LcgJump.

(** The identifier format, the decomposition the specification words, and
    the part of [SerialNumberGenerator::next] that follows the draw. *)

Module SerialSpec.

Import SerialNumberGenerator.

Definition is_upper (c : ascii) : bool :=
  (65 <=? N_of_ascii c)%N && (N_of_ascii c <=? 90)%N.

Definition is_digit (c : ascii) : bool :=
  (48 <=? N_of_ascii c)%N && (N_of_ascii c <=? 57)%N.

(** Two uppercase ASCII letters followed by three ASCII decimal digits. *)
Definition is_serial (s : string) : bool :=
  match s with
  | String a (String b (String c (String d (String e EmptyString)))) =>
      is_upper a && is_upper b && is_digit c && is_digit d && is_digit e
  | _ => false
  end.

(** The decomposition in the specification's words: for each radix and
    offset in turn, append the character [offset + (v mod radix)] and
    continue with [v div radix]. *)
Fixpoint mixed_radix_encode (radices : list Z) (offsets : list ascii) (v : Z)
  : string :=
  match radices, offsets with
  | radix :: radices', offset :: offsets' =>
      String (ascii_of_N (N_of_ascii offset + Z.to_N (v mod radix)))
        (mixed_radix_encode radices' offsets' (v / radix))
  | _, _ => EmptyString
  end.

Definition radices : list Z := [26; 26; 10; 10; 10].
Definition offsets : list ascii := ["A"; "A"; "0"; "0"; "0"]%char.

(** The value an identifier of the format stands for. *)
Definition digit_value (offset : ascii) (c : ascii) : Z :=
  Z.of_N (N_of_ascii c) - Z.of_N (N_of_ascii offset).

Definition decode (s : string) : Z :=
  match s with
  | String a (String b (String c (String d (String e EmptyString)))) =>
      digit_value "A" a + 26 * (digit_value "A" b + 26 * (digit_value "0" c
        + 10 * (digit_value "0" d + 10 * digit_value "0" e)))
  | _ => 0
  end.

(** The five [add_digit] lines of [next], applied to the value drawn. *)
Definition decompose (value : Z) : option string :=
  let serial := EmptyString in
  '(serial, value) <- add_digit serial value 26 "A" ;;
  '(serial, value) <- add_digit serial value 26 "A" ;;
  '(serial, value) <- add_digit serial value 10 "0" ;;
  '(serial, value) <- add_digit serial value 10 "0" ;;
  '(serial, value) <- add_digit serial value 10 "0" ;;
  Some serial.

(** The serial generator as a transition system. *)
Definition draw (g : t) : Z := Lcg.advance (Lcg.x_ (lcg_ g)).
Definition identifier (g : t) : string :=
  mixed_radix_encode radices offsets (draw g).
Definition after_call (g : t) : t := {| lcg_ := {| Lcg.x_ := draw g |} |}.

End SerialSpec.

(** The identifier returned by the [n]-th call ([n >= 1]) on a fresh serial
    generator. *)

Module SerialOutputs.

Import SerialNumberGenerator.

Definition nth_identifier (n : nat) : option string :=
  '(os, _) <- calls next n init ;; nth_error os (pred n).

End SerialOutputs.

(** * Properties *)

(** ** Generic facts about [calls] *)

Lemma bind_Some {A B : Type} (m : option A) (k : A -> option B) (b : B) :
  bind m k = Some b <-> exists a, m = Some a /\ k a = Some b.
Proof.
  destruct m as [a|]; simpl; split.
  - intros H; exists a; auto.
  - intros [a' [E H]]; inversion E; subst; exact H.
  - discriminate.
  - intros [a' [E _]]; discriminate.
Qed.

Lemma Some_inj {A : Type} (a b : A) : Some a = Some b -> a = b.
Proof. congruence. Qed.

Section CallsFacts.

Context {G R : Type}.
Variable next : G -> option (R * G).

Lemma calls_length (n : nat) :
  forall g os g', calls next n g = Some (os, g') -> List.length os = n.
Proof.
  induction n as [|n IH]; simpl; intros g os g' H.
  - inversion H; reflexivity.
  - apply bind_Some in H. destruct H as [[o g1] [_ H]].
    apply bind_Some in H. destruct H as [[os1 g2] [H1 H]].
    inversion H; subst. simpl. f_equal. eapply IH; eassumption.
Qed.

(** A generator whose [next] is, on the states of an invariant [Inv], an
    output function [out] and a state transformer [step]. *)
Variable Inv : G -> Prop.
Variable out : G -> R.
Variable step : G -> G.
Hypothesis next_step : forall g, Inv g -> next g = Some (out g, step g).
Hypothesis step_Inv : forall g, Inv g -> Inv (step g).

Lemma iter_Inv (n : nat) (g : G) : Inv g -> Inv (Nat.iter n step g).
Proof. intros Hg; induction n; simpl; auto. Qed.

Lemma calls_iter (n : nat) :
  forall g, Inv g ->
    calls next n g =
      Some (map (fun i => out (Nat.iter i step g)) (seq 0 n),
            Nat.iter n step g).
Proof.
  induction n as [|n IH]; intros g Hg.
  - reflexivity.
  - cbn [calls]. rewrite (next_step g Hg). cbn [bind].
    rewrite (IH (step g) (step_Inv g Hg)). cbn [bind].
    rewrite <- Nat.iter_succ_r. f_equal. f_equal.
    cbn [seq map Nat.iter]. f_equal.
    rewrite <- seq_shift, map_map.
    apply map_ext. intros i. rewrite <- Nat.iter_succ_r. reflexivity.
Qed.

End CallsFacts.

(** ** The insertion loop of the tests *)

Section TestsFacts.

Context {G R : Type}.
Variable eq_dec : forall a b : R, {a = b} + {a <> b}.
Variable next : G -> option (R * G).

Lemma set_add_new (a : R) (s : set R) :
  ~ In a s -> List.length (set_add eq_dec a s) = S (List.length s).
Proof.
  induction s as [|b s IH]; intros H; [reflexivity|].
  cbn [set_add]. destruct (eq_dec a b) as [->|N].
  - exfalso. apply H. left. reflexivity.
  - cbn [List.length]. f_equal. apply IH. intros I. apply H. right. exact I.
Qed.

Lemma insert_all_length (os : list R) :
  forall s, NoDup os -> (forall x, In x os -> ~ In x s) ->
    List.length (fold_left (fun s v => set_add eq_dec v s) os s)
    = (List.length s + List.length os)%nat.
Proof.
  induction os as [|o os IH]; intros s N D.
  - cbn. lia.
  - inversion N as [|? ? No Nos]; subst. cbn [fold_left List.length].
    rewrite IH; [rewrite set_add_new; [lia|] | exact Nos |].
    + apply D. left. reflexivity.
    + intros x Hx I. apply set_add_iff in I. destruct I as [->|I].
      * contradiction.
      * revert I. apply D. right. exact Hx.
Qed.

Lemma insert_loop_calls (n : nat) :
  forall s g,
    insert_loop eq_dec next n s g =
      '(os, g') <- calls next n g ;;
      Some (fold_left (fun s v => set_add eq_dec v s) os s, g').
Proof.
  induction n as [|n IH]; intros s g; [reflexivity|].
  cbn [insert_loop calls]. destruct (next g) as [[v g1]|]; [|reflexivity].
  cbn [bind]. rewrite IH.
  destruct (calls next n g1) as [[os g2]|]; reflexivity.
Qed.

(** A loop over [n] defined calls with pairwise distinct results fills an
    empty set with [n] elements. *)
Lemma insert_loop_distinct (n : nat) (g : G) (os : list R) (g' : G) :
  calls next n g = Some (os, g') -> NoDup os ->
  exists s, insert_loop eq_dec next n (empty_set R) g = Some (s, g') /\
            List.length s = n.
Proof.
  intros E N. rewrite insert_loop_calls, E. cbn [bind].
  eexists. split; [reflexivity|].
  rewrite insert_all_length; [|exact N|intros x _ []].
  cbn [empty_set List.length Nat.add]. eapply calls_length. exact E.
Qed.

End TestsFacts.

(** ** Runs and defined calls *)

Section MayRunFacts.

Context {G R : Type}.
Variable next : G -> option (R * G).



End MayRunFacts.

(** ** The cyclic counter *)

Module Z256Facts.

Import Z256Generator Z256Step.

Lemma z256_init_Inv : Inv init.
Proof. unfold Inv, init; simpl; lia. Qed.

Lemma add_defined (g : t) :
  Inv g -> CInt.add (state_ g) 191 = Some (state_ g + 191).
Proof.
  unfold Inv, CInt.add, CInt.in_range, CInt.INT_MIN, CInt.INT_MAX.
  intros H.
  replace (_ && _) with true; [reflexivity|].
  symmetry; apply andb_true_iff; split; apply Z.leb_le; lia.
Qed.

Lemma rem_defined (s : Z) :
  0 <= s -> CInt.rem s 256 = Some (s mod 256).
Proof.
  intros H. unfold CInt.rem. cbn [Z.eqb orb].
  replace (s =? CInt.INT_MIN) with false
    by (symmetry; apply Z.eqb_neq; unfold CInt.INT_MIN; lia).
  cbn [andb]. rewrite Z.rem_mod_nonneg by lia. reflexivity.
Qed.

Lemma z256_next_step (g : t) : Inv g -> next g = Some (out g, step g).
Proof.
  intros H. unfold next. rewrite (add_defined g H). cbn [bind].
  rewrite rem_defined by (unfold Inv in H; lia). reflexivity.
Qed.

Lemma z256_step_Inv (g : t) : Inv g -> Inv (step g).
Proof. intros _. unfold Inv, step; simpl. apply Z.mod_pos_bound. lia. Qed.

(** Closed form of the state after [n] calls. *)
Lemma state_iter (n : nat) (g : t) :
  Inv g -> state_ (Nat.iter n step g) = (state_ g + 191 * Z.of_nat n) mod 256.
Proof.
  intros Hg. induction n as [|n IH].
  - simpl. rewrite Z.add_0_r, Z.mod_small; [reflexivity | exact Hg].
  - rewrite Nat.iter_succ. unfold step at 1. cbn [state_]. rewrite IH.
    rewrite Zplus_mod_idemp_l. f_equal. lia.
Qed.

Lemma out_iter (n : nat) (g : t) :
  Inv g -> out (Nat.iter n step g) = (state_ g + 191 * Z.of_nat (S n)) mod 256.
Proof.
  intros Hg. unfold out. rewrite state_iter by exact Hg.
  rewrite Zplus_mod_idemp_l. f_equal. lia.
Qed.

Lemma z256_calls_closed_form (n : nat) (g : t) :
  Inv g ->
  calls next n g =
    Some (map (fun i => (state_ g + 191 * Z.of_nat (S i)) mod 256) (seq 0 n),
          {| state_ := (state_ g + 191 * Z.of_nat n) mod 256 |}).
Proof.
  intros Hg.
  rewrite (calls_iter next Inv out step z256_next_step z256_step_Inv n g Hg).
  f_equal. f_equal.
  - apply map_ext. intros i. apply out_iter, Hg.
  - pose proof (state_iter n g Hg) as E.
    destruct (Nat.iter n step g) as [s]. cbn [state_] in E. congruence.
Qed.

(** The step 191 is invertible modulo 256: equal residues of [a + 191 i]
    and [a + 191 j] force [i = j] modulo 256. *)
Lemma coprime_256_191 : Z.coprime 256 191.
Proof. reflexivity. Qed.

Lemma residues_differ (a i j : Z) :
  (a + 191 * i) mod 256 = (a + 191 * j) mod 256 -> (256 | i - j).
Proof.
  intros E.
  assert (D : (256 | 191 * (i - j))).
  { apply Z.mod_divide; [lia|].
    replace (191 * (i - j)) with ((a + 191 * i) - (a + 191 * j)) by ring.
    rewrite Zminus_mod, E, Z.sub_diag. reflexivity. }
  apply Z.gauss with (m := 191); [exact D | exact coprime_256_191].
Qed.

Lemma residues_inj (a i j : Z) :
  0 <= i -> 0 <= j -> Z.abs (i - j) < 256 ->
  (a + 191 * i) mod 256 = (a + 191 * j) mod 256 -> i = j.
Proof.
  intros Hi Hj Hd E. apply residues_differ in E. destruct E as [k Hk]. lia.
Qed.

End Z256Facts.

Module Z256Theorems.

Import Z256Generator Z256Step Z256Facts.

Lemma outputs_NoDup (a : Z) (n : nat) :
  (n <= 256)%nat ->
  NoDup (map (fun i => (a + 191 * Z.of_nat (S i)) mod 256) (seq 0 n)).
Proof.
  intros Hn. apply Injective_map_NoDup_in; [|apply seq_NoDup].
  intros i j Hi Hj E. apply in_seq in Hi, Hj.
  apply residues_inj in E; lia.
Qed.

Lemma outputs_range (a : Z) (n : nat) :
  Forall (fun v => 0 <= v < 256)
    (map (fun i => (a + 191 * Z.of_nat (S i)) mod 256) (seq 0 n)).
Proof.
  apply Forall_forall. intros v Hv. apply in_map_iff in Hv.
  destruct Hv as [i [<- _]]. apply Z.mod_pos_bound. lia.
Qed.

(** A list of 256 distinct values of [0, 256) holds each of them. *)
Lemma all_residues (os : list Z) :
  List.length os = 256%nat -> NoDup os ->
  Forall (fun v => 0 <= v < 256) os ->
  forall r, 0 <= r < 256 -> In r os.
Proof.
  intros Hlen Hnd Hrange r Hr.
  assert (I : incl (map Z.of_nat (seq 0 256)) os).
  { apply NoDup_length_incl; [exact Hnd | |].
    - rewrite length_map, length_seq, Hlen. apply Nat.le_refl.
    - intros v Hv. rewrite Forall_forall in Hrange.
      specialize (Hrange v Hv). apply in_map_iff.
      exists (Z.to_nat v). split; [lia|]. apply in_seq. lia. }
  apply I. apply in_map_iff. exists (Z.to_nat r). split; [lia|].
  apply in_seq. lia.
Qed.

Lemma nth_output_closed_form (n : nat) :
  (1 <= n)%nat -> nth_output n = Some ((42 + 191 * Z.of_nat n) mod 256).
Proof.
  intros Hn. unfold nth_output.
  rewrite (z256_calls_closed_form n init z256_init_Inv). cbn [bind].
  rewrite nth_error_map, nth_error_seq.
  replace (pred n <? n)%nat with true by (symmetry; apply Nat.ltb_lt; lia).
  cbn [option_map init state_]. do 3 f_equal. lia.
Qed.

(** C5.  256 calls of [next] on a fresh cyclic counter are all defined and
    return 256 pairwise distinct integers of [0, 256); every residue
    modulo 256 occurs exactly once among them. *)
Theorem Z256_full_cycle :
  exists os g',
    calls next 256 init = Some (os, g') /\
    List.length os = 256%nat /\
    NoDup os /\
    Forall (fun v => 0 <= v < 256) os /\
    (forall r, 0 <= r < 256 -> count_occ Z.eq_dec os r = 1%nat).
Proof.
  rewrite (z256_calls_closed_form 256 init z256_init_Inv).
  eexists; eexists; split; [reflexivity|].
  assert (L : List.length
                (map (fun i => (state_ init + 191 * Z.of_nat (S i)) mod 256)
                   (seq 0 256)) = 256%nat)
    by (rewrite length_map, length_seq; reflexivity).
  pose proof (outputs_NoDup (state_ init) 256 (Nat.le_refl _)) as N.
  pose proof (outputs_range (state_ init) 256) as F.
  repeat split; try assumption.
  intros r Hr. apply NoDup_count_occ'; [exact N|].
  apply all_residues; assumption.
Qed.

Lemma z256_calls_defined (n : nat) :
  exists os g, calls next n init = Some (os, g) /\ Inv g /\
               Forall (fun v => 0 <= v < 256) os.
Proof.
  rewrite (z256_calls_closed_form n init z256_init_Inv).
  eexists; eexists; split; [reflexivity|]. split.
  - unfold Inv; cbn [state_]. apply Z.mod_pos_bound. lia.
  - apply outputs_range.
Qed.

Lemma Z256_full_cycle_witness :
  exists os g',
    calls next 256 init = Some (os, g') /\
    count_occ Z.eq_dec os 0 = 1%nat /\ count_occ Z.eq_dec os 255 = 1%nat.
Proof.
  destruct Z256_full_cycle as [os [g' [E [_ [_ [_ C]]]]]].
  exists os, g'. split; [exact E|]. split; apply C; lia.
Defined.

(** X1.  [test_Z256Generator] runs without undefined behaviour and its
    assertion [s.size() == 256] holds. *)
Lemma test_Z256Generator_passes : test_Z256Generator = Some true.
Proof.
  pose proof (z256_calls_closed_form 256 init z256_init_Inv) as E.
  pose proof (outputs_NoDup (state_ init) 256 (Nat.le_refl _)) as N.
  destruct (insert_loop_distinct Z.eq_dec next 256 init _ _ E N)
    as [s [Es Ls]].
  unfold test_Z256Generator. cbv zeta. rewrite Es. cbn [bind].
  rewrite Ls. reflexivity.
Qed.

(** C6.  [next] replaces the state by (state + 191) mod 256 and returns
    the new state, from the initial state 42: this is what every call on
    an instance that started fresh does; the first three values returned
    are 233, 168 and 103. *)
Theorem Z256_next_spec :
  state_ init = 42 /\
  (forall n, exists os g,
      calls next n init = Some (os, g) /\
      next g = Some ((state_ g + 191) mod 256,
                     {| state_ := (state_ g + 191) mod 256 |})) /\
  (exists g, calls next 3 init = Some ([233; 168; 103], g)).
Proof.
  split; [reflexivity|]. split.
  - intros n. destruct (z256_calls_defined n) as [os [g [E [I _]]]].
    exists os, g. split; [exact E|]. apply (z256_next_step g I).
  - eexists. reflexivity.
Qed.

(** C9.  On an instance that started fresh the state is never negative:
    after any number of calls it lies in [0, 256) (so did the values
    returned), the addition [state_ + 191] stays inside [int], both
    operands of [%] are non-negative and so is its result. *)
Theorem Z256_state_invariant (n : nat) :
  0 <= state_ init < 256 /\
  exists os g,
    calls next n init = Some (os, g) /\
    0 <= state_ g < 256 /\
    Forall (fun v => 0 <= v < 256) os /\
    CInt.add (state_ g) 191 = Some (state_ g + 191) /\
    0 <= state_ g + 191 <= CInt.INT_MAX /\
    CInt.rem (state_ g + 191) 256 = Some (Z.rem (state_ g + 191) 256) /\
    0 <= Z.rem (state_ g + 191) 256 < 256.
Proof.
  split; [exact z256_init_Inv|].
  destruct (z256_calls_defined n) as [os [g [E [I F]]]].
  exists os, g. unfold Inv in I.
  split; [exact E|]. split; [exact I|]. split; [exact F|].
  split; [apply add_defined; exact I|].
  split; [unfold CInt.INT_MAX; lia|].
  rewrite rem_defined by lia.
  rewrite Z.rem_mod_nonneg by lia.
  split; [reflexivity|]. apply Z.mod_pos_bound. lia.
Qed.

(** C10.  256 calls bring a fresh cyclic counter back to its initial
    state 42, the 256th value returned being 42; from then on the values
    repeat: the (n+256)-th is the n-th for every n >= 1, and no shift by
    less than 256 maps the sequence of values to itself. *)
Theorem Z256_period :
  (exists os, calls next 256 init = Some (os, init) /\
              nth_error os 255 = Some 42) /\
  (forall n, (1 <= n)%nat ->
     exists v, nth_output n = Some v /\ nth_output (n + 256) = Some v) /\
  (forall p n, (0 < p < 256)%nat -> (1 <= n)%nat ->
     nth_output (n + p) <> nth_output n).
Proof.
  split; [|split].
  - exists (map (fun i => (state_ init + 191 * Z.of_nat (S i)) mod 256)
              (seq 0 256)).
    split.
    + rewrite (z256_calls_closed_form 256 init z256_init_Inv). reflexivity.
    + rewrite nth_error_map, nth_error_seq. reflexivity.
  - intros n Hn. eexists. split; [apply nth_output_closed_form, Hn|].
    rewrite nth_output_closed_form by lia.
    f_equal. rewrite Nat2Z.inj_add.
    replace (42 + 191 * (Z.of_nat n + Z.of_nat 256))
      with (42 + 191 * Z.of_nat n + 191 * 256) by lia.
    apply Z_mod_plus_full.
  - intros p n Hp Hn.
    rewrite !nth_output_closed_form by lia.
    intros E. apply Some_inj, residues_inj in E; lia.
Qed.

Lemma Z256_period_witness :
  (exists v, nth_output 1 = Some v /\ nth_output (1 + 256) = Some v) /\
  nth_output (1 + 1) <> nth_output 1.
Proof.
  destruct Z256_period as [_ [P Q]]. split.
  - apply (P 1%nat). apply Nat.le_refl.
  - apply (Q 1%nat 1%nat).
    + split; [apply Nat.lt_0_1 | apply Nat.ltb_lt; reflexivity].
    + apply Nat.le_refl.
Defined.

End Z256Theorems.

(** ** The linear congruential engine *)

Module LcgFacts.

Import Lcg LcgJump.

Lemma advance_range (x : Z) : 0 <= advance x < modulus.
Proof. unfold advance, modulus. apply Z.mod_pos_bound. lia. Qed.

Lemma iter_range (n : nat) (x : Z) :
  0 <= x < modulus -> 0 <= Nat.iter n advance x < modulus.
Proof.
  intros Hx. destruct n as [|n]; [exact Hx|].
  rewrite Nat.iter_succ. apply advance_range.
Qed.

(** The transition is affine, so its iterates are determined by the orbit
    of 0: [f^n x = (f^n 0) * (260 x + 1) + x] modulo the modulus. *)
Lemma iter_affine (n : nat) (x : Z) :
  (modulus | Nat.iter n advance x
             - (Nat.iter n advance 0 * (260 * x + 1) + x)).
Proof.
  induction n as [|n IH].
  - exists 0. simpl. lia.
  - rewrite !Nat.iter_succ.
    set (y := Nat.iter n advance x) in *.
    set (s := Nat.iter n advance 0) in *.
    destruct IH as [k Hk].
    unfold advance, multiplier, increment, modulus in *.
    rewrite !Z.mod_eq by lia.
    exists (261 * k - (261 * y + 1) / 676000
            + (261 * s + 1) / 676000 * (260 * x + 1)).
    replace y with (k * 676000 + (s * (260 * x + 1) + x)) at 1 by lia.
    ring.
Qed.

(** [260 x + 1] is invertible modulo 676000 = 2^5 * 5^3 * 13^2, since
    260^3 is a multiple of the modulus. *)
Lemma coprime_modulus (x : Z) : Z.coprime modulus (260 * x + 1).
Proof.
  apply Z.coprime_Bezout. unfold modulus.
  exists (- 26 * x * x * x), (1 - 260 * x + 67600 * x * x). ring.
Qed.

Lemma fixed_point_iff (n : nat) (x : Z) :
  0 <= x < modulus -> (Nat.iter n advance x = x <-> period0 n).
Proof.
  intros Hx. unfold period0.
  pose proof (iter_affine n x) as A.
  pose proof (iter_range n x Hx) as Rx.
  assert (R0 : 0 <= Nat.iter n advance 0 < modulus)
    by (apply iter_range; unfold modulus; lia).
  split; intros E.
  - rewrite E in A.
    replace (x - (Nat.iter n advance 0 * (260 * x + 1) + x))
      with ((260 * x + 1) * (- Nat.iter n advance 0)) in A by ring.
    apply Z.gauss in A; [|apply coprime_modulus].
    destruct A as [k Hk]. unfold modulus in *. lia.
  - rewrite E in A. destruct A as [k Hk]. unfold modulus in *. lia.
Qed.

(** The periods of the orbit of 0 are closed under sums, differences,
    multiples and greatest common divisors. *)
Lemma period0_add (a b : nat) : period0 a -> period0 b -> period0 (a + b).
Proof.
  unfold period0. intros Ha Hb. rewrite Nat.iter_add, Hb. exact Ha.
Qed.

Lemma period0_sub (a b : nat) : period0 (a + b) -> period0 b -> period0 a.
Proof.
  unfold period0. intros Hab Hb. rewrite Nat.iter_add, Hb in Hab. exact Hab.
Qed.

Lemma period0_mul (k a : nat) : period0 a -> period0 (k * a).
Proof.
  intros Ha. induction k as [|k IH]; [reflexivity|].
  cbn [Nat.mul]. apply period0_add; assumption.
Qed.

Lemma period0_gcd (a b : nat) :
  period0 a -> period0 b -> period0 (Nat.gcd a b).
Proof.
  intros Ha Hb.
  destruct (Nat.gcd_bezout a b) as [[u [v E]]|[u [v E]]].
  - apply period0_sub with (b := (v * b)%nat); [|apply period0_mul, Hb].
    rewrite <- E. apply period0_mul, Ha.
  - apply period0_sub with (b := (v * a)%nat); [|apply period0_mul, Ha].
    rewrite <- E. apply period0_mul, Hb.
Qed.

(** Correctness of the repeated squaring. *)
Lemma act_compose (s t : Z * Z) (x : Z) :
  act (compose s t) x = act s (act t x).
Proof.
  destruct s as [a b], t as [c d]. unfold act, compose. cbn [fst snd].
  rewrite Zplus_mod_idemp_r.
  rewrite <- Zplus_mod_idemp_l, Zmult_mod_idemp_l, Zplus_mod_idemp_l.
  symmetry.
  rewrite <- Zplus_mod_idemp_l, Zmult_mod_idemp_r, Zplus_mod_idemp_l.
  f_equal. ring.
Qed.

Lemma act_transition (x : Z) : act (multiplier, increment) x = advance x.
Proof. reflexivity. Qed.

Lemma jump_spec (p : positive) :
  forall x, act (jump p) x = Nat.iter (Pos.to_nat p) advance x.
Proof.
  induction p as [q IH|q IH|]; intros x; cbn [jump].
  - rewrite Pos2Nat.inj_xI, Nat.iter_succ.
    replace (2 * Pos.to_nat q)%nat with (Pos.to_nat q + Pos.to_nat q)%nat
      by lia.
    rewrite Nat.iter_add, !act_compose, act_transition, !IH. reflexivity.
  - rewrite Pos2Nat.inj_xO.
    replace (2 * Pos.to_nat q)%nat with (Pos.to_nat q + Pos.to_nat q)%nat
      by lia.
    rewrite Nat.iter_add, act_compose, !IH. reflexivity.
  - rewrite act_transition. reflexivity.
Qed.

Lemma period0_jump (p : positive) :
  period0 (Pos.to_nat p) <-> act (jump p) 0 = 0.
Proof. unfold period0. rewrite jump_spec. reflexivity. Qed.

(** The orbit of 0 closes after 676000 steps, and not after 676000 / q
    steps for any prime q of the modulus. *)
Lemma period0_modulus : period0 (Pos.to_nat 676000).
Proof. apply period0_jump. vm_compute. reflexivity. Qed.

Lemma not_period0_half : ~ period0 (Pos.to_nat 338000).
Proof. rewrite period0_jump. vm_compute. discriminate. Qed.

Lemma not_period0_fifth : ~ period0 (Pos.to_nat 135200).
Proof. rewrite period0_jump. vm_compute. discriminate. Qed.

Lemma not_period0_thirteenth : ~ period0 (Pos.to_nat 52000).
Proof. rewrite period0_jump. vm_compute. discriminate. Qed.

(** The primes of the modulus. *)
Lemma prime_5 : Z.prime 5.
Proof.
  split; [lia|]. intros n Hn [k Hk].
  assert (C : n = 2 \/ n = 3 \/ n = 4) by lia.
  destruct C as [->|[->| ->]]; lia.
Qed.

Lemma prime_13 : Z.prime 13.
Proof.
  split; [lia|]. intros n Hn [k Hk].
  assert (C : n = 2 \/ n = 3 \/ n = 4 \/ n = 5 \/ n = 6 \/ n = 7 \/ n = 8
              \/ n = 9 \/ n = 10 \/ n = 11 \/ n = 12) by lia.
  repeat (destruct C as [->|C]; [lia|]). subst n. lia.
Qed.

Lemma modulus_factors : modulus = 2 * (2 * (2 * (2 * (2 * (5 * (5 * (5 * (13 * 13)))))))).
Proof. reflexivity. Qed.

(** A divisor of the modulus other than 1 has one of its primes. *)
Lemma small_factor (k : Z) :
  1 < k -> (k | modulus) -> (2 | k) \/ (5 | k) \/ (13 | k).
Proof.
  intros Hk D.
  destruct (Z.BoolSpec_divide_nz 2 k ltac:(lia)) as [H2|H2]; [auto|].
  destruct (Z.BoolSpec_divide_nz 5 k ltac:(lia)) as [H5|H5]; [auto|].
  destruct (Z.BoolSpec_divide_nz 13 k ltac:(lia)) as [H13|H13]; [auto|].
  exfalso.
  apply (Z.coprime_prime_l 2 k Z.prime_2) in H2.
  apply (Z.coprime_prime_l 5 k prime_5) in H5.
  apply (Z.coprime_prime_l 13 k prime_13) in H13.
  assert (C : Z.coprime modulus k).
  { rewrite modulus_factors. repeat apply Z.coprime_mul_l; assumption. }
  apply Z.divide_gcd_iff in D; [|lia].
  unfold Z.coprime in C. rewrite Z.gcd_comm in C. lia.
Qed.

(** No positive count below the modulus is a period of the orbit of 0. *)
Lemma no_small_period0 (n : nat) :
  (0 < n)%nat -> Z.of_nat n < modulus -> ~ period0 n.
Proof.
  intros Hpos Hlt P.
  pose proof (period0_gcd n _ P period0_modulus) as Pg.
  set (M := Pos.to_nat 676000) in *.
  assert (HM : Z.of_nat M = modulus) by (unfold M; apply positive_nat_Z).
  set (g := Nat.gcd n M) in *.
  destruct (Nat.gcd_divide_r n M) as [k Ek]. fold g in Ek.
  assert (Hg : (g <= n)%nat).
  { apply Nat.divide_pos_le; [exact Hpos | apply Nat.gcd_divide_l]. }
  assert (EZ : Z.of_nat k * Z.of_nat g = modulus)
    by (rewrite <- Nat2Z.inj_mul, <- Ek; exact HM).
  unfold modulus in *.
  assert (Hk : 1 < Z.of_nat k) by nia.
  destruct (small_factor (Z.of_nat k) Hk) as [[c Ec]|[[c Ec]|[c Ec]]].
  - exists (Z.of_nat g). unfold modulus. lia.
  - apply not_period0_half.
    replace (Pos.to_nat 338000) with (Z.to_nat c * g)%nat by nia.
    apply period0_mul, Pg.
  - apply not_period0_fifth.
    replace (Pos.to_nat 135200) with (Z.to_nat c * g)%nat by nia.
    apply period0_mul, Pg.
  - apply not_period0_thirteenth.
    replace (Pos.to_nat 52000) with (Z.to_nat c * g)%nat by nia.
    apply period0_mul, Pg.
Qed.

End LcgFacts.

(** ** The serial generator *)

Module SerialFacts.

Import SerialNumberGenerator SerialSpec.

Lemma of_unsigned_small (v : Z) :
  0 <= v < 2147483648 -> CInt.of_unsigned v = v.
Proof.
  intros H. unfold CInt.of_unsigned.
  rewrite Z.mod_small by lia.
  destruct (Z.ltb_spec v 2147483648); [reflexivity | lia].
Qed.

Lemma div_defined (a b : Z) :
  0 <= a -> 0 < b ->
  CInt.div a b = Some {| CInt.quot := a / b; CInt.rem_ := a mod b |}.
Proof.
  intros Ha Hb. unfold CInt.div.
  replace (b =? 0) with false by (symmetry; apply Z.eqb_neq; lia).
  replace (b =? -1) with false by (symmetry; apply Z.eqb_neq; lia).
  rewrite andb_false_r. cbn [orb].
  rewrite Z.quot_div_nonneg, Z.rem_mod_nonneg by lia. reflexivity.
Qed.

Lemma to_int_small (c : ascii) :
  Z.of_N (N_of_ascii c) < 128 -> Char.to_int c = Z.of_N (N_of_ascii c).
Proof.
  intros H. unfold Char.to_int.
  destruct (Z.ltb_spec (Z.of_N (N_of_ascii c)) 128); [reflexivity | lia].
Qed.

(** One [add_digit] on a non-negative value, for an offset and a base that
    keep the character inside 7 bits. *)
Lemma add_digit_spec (serial : string) (val base : Z) (offset : ascii) :
  0 <= val -> 0 < base -> Z.of_N (N_of_ascii offset) + base <= 128 ->
  add_digit serial val base offset =
    Some (push_back serial
            (ascii_of_N (N_of_ascii offset + Z.to_N (val mod base))),
          val / base).
Proof.
  intros Hv Hb Ho.
  pose proof (Z.mod_pos_bound val base Hb) as Hr.
  unfold add_digit. rewrite div_defined by assumption.
  cbn [bind CInt.rem_ CInt.quot].
  rewrite to_int_small by lia.
  unfold CInt.add, CInt.in_range, CInt.INT_MIN, CInt.INT_MAX.
  replace (_ && _) with true
    by (symmetry; apply andb_true_iff; split; apply Z.leb_le; lia).
  cbn [bind]. unfold Char.of_int.
  rewrite Z.mod_small by lia.
  rewrite Z2N.inj_add, N2Z.id by lia. reflexivity.
Qed.

Lemma decompose_spec (v : Z) :
  0 <= v -> decompose v = Some (mixed_radix_encode radices offsets v).
Proof.
  intros Hv. unfold decompose.
  assert (H1 : 0 <= v / 26) by (apply Z.div_pos; lia).
  assert (H2 : 0 <= v / 26 / 26) by (apply Z.div_pos; lia).
  assert (H3 : 0 <= v / 26 / 26 / 10) by (apply Z.div_pos; lia).
  assert (H4 : 0 <= v / 26 / 26 / 10 / 10) by (apply Z.div_pos; lia).
  repeat (rewrite add_digit_spec by (try assumption; cbn; lia); cbn [bind]).
  reflexivity.
Qed.

(** [next] is the draw followed by the decomposition. *)
Lemma next_decompose (g : t) :
  next g =
    let '(r, lcg') := Lcg.call (lcg_ g) in
    serial <- decompose (CInt.of_unsigned r) ;;
    Some (serial, {| lcg_ := lcg' |}).
Proof.
  unfold next, decompose. destruct (Lcg.call (lcg_ g)) as [r lcg'].
  repeat match goal with
         | |- context [add_digit ?s ?v ?b ?o] =>
             destruct (add_digit s v b o) as [[? ?]|]; cbn [bind];
             [|reflexivity]
         end.
  reflexivity.
Qed.

Lemma draw_range (g : t) : 0 <= draw g < Lcg.modulus.
Proof. apply LcgFacts.advance_range. Qed.

Lemma serial_next_step (g : t) : next g = Some (identifier g, after_call g).
Proof.
  rewrite next_decompose. unfold Lcg.call. fold (draw g).
  pose proof (draw_range g) as R. unfold Lcg.modulus in R.
  rewrite of_unsigned_small by lia.
  rewrite decompose_spec by lia. reflexivity.
Qed.

(** *** The decomposition is a bijection onto the format *)

Lemma encode_unfold (v : Z) :
  mixed_radix_encode radices offsets v =
    String (ascii_of_N (65 + Z.to_N (v mod 26)))
   (String (ascii_of_N (65 + Z.to_N (v / 26 mod 26)))
   (String (ascii_of_N (48 + Z.to_N (v / 26 / 26 mod 10)))
   (String (ascii_of_N (48 + Z.to_N (v / 26 / 26 / 10 mod 10)))
   (String (ascii_of_N (48 + Z.to_N (v / 26 / 26 / 10 / 10 mod 10)))
    EmptyString)))).
Proof. reflexivity. Qed.

Lemma code_of_digit (o : N) (d : Z) :
  0 <= d -> Z.of_N o + d < 256 ->
  N_of_ascii (ascii_of_N (o + Z.to_N d)) = (o + Z.to_N d)%N.
Proof. intros Hd Ho. apply N_ascii_embedding. lia. Qed.

Lemma is_upper_iff (c : ascii) :
  is_upper c = true <-> 65 <= Z.of_N (N_of_ascii c) <= 90.
Proof.
  unfold is_upper. rewrite andb_true_iff, !N.leb_le. lia.
Qed.

Lemma is_digit_iff (c : ascii) :
  is_digit c = true <-> 48 <= Z.of_N (N_of_ascii c) <= 57.
Proof.
  unfold is_digit. rewrite andb_true_iff, !N.leb_le. lia.
Qed.

Lemma encode_format (v : Z) :
  is_serial (mixed_radix_encode radices offsets v) = true.
Proof.
  rewrite encode_unfold. cbn [is_serial].
  pose proof (Z.mod_pos_bound v 26 eq_refl).
  pose proof (Z.mod_pos_bound (v / 26) 26 eq_refl).
  pose proof (Z.mod_pos_bound (v / 26 / 26) 10 eq_refl).
  pose proof (Z.mod_pos_bound (v / 26 / 26 / 10) 10 eq_refl).
  pose proof (Z.mod_pos_bound (v / 26 / 26 / 10 / 10) 10 eq_refl).
  rewrite !andb_true_iff, !is_upper_iff, !is_digit_iff.
  rewrite !code_of_digit by lia. lia.
Qed.

Lemma decode_encode (v : Z) :
  0 <= v < 676000 -> decode (mixed_radix_encode radices offsets v) = v.
Proof.
  intros Hv. rewrite encode_unfold. cbn [decode]. unfold digit_value.
  pose proof (Z.mod_pos_bound v 26 eq_refl).
  pose proof (Z.mod_pos_bound (v / 26) 26 eq_refl).
  pose proof (Z.mod_pos_bound (v / 26 / 26) 10 eq_refl).
  pose proof (Z.mod_pos_bound (v / 26 / 26 / 10) 10 eq_refl).
  pose proof (Z.mod_pos_bound (v / 26 / 26 / 10 / 10) 10 eq_refl).
  rewrite !code_of_digit by lia.
  change (Z.of_N (N_of_ascii "A")) with 65.
  change (Z.of_N (N_of_ascii "0")) with 48.
  rewrite !N2Z.inj_add, !Z2N.id by lia.
  change (Z.of_N 65) with 65. change (Z.of_N 48) with 48.
  assert (E5 : v / 26 / 26 / 10 / 10 mod 10 = v / 26 / 26 / 10 / 10).
  { apply Z.mod_small. split.
    - repeat (apply Z.div_pos; [|lia]). lia.
    - repeat (apply Z.div_lt_upper_bound; [lia|]). lia. }
  rewrite E5.
  pose proof (Z.div_mod v 26 ltac:(lia)).
  pose proof (Z.div_mod (v / 26) 26 ltac:(lia)).
  pose proof (Z.div_mod (v / 26 / 26) 10 ltac:(lia)).
  pose proof (Z.div_mod (v / 26 / 26 / 10) 10 ltac:(lia)).
  lia.
Qed.

Lemma encode_inj (v w : Z) :
  0 <= v < 676000 -> 0 <= w < 676000 ->
  mixed_radix_encode radices offsets v = mixed_radix_encode radices offsets w ->
  v = w.
Proof.
  intros Hv Hw E.
  rewrite <- (decode_encode v Hv), <- (decode_encode w Hw), E. reflexivity.
Qed.

Lemma decode_range (s : string) :
  is_serial s = true -> 0 <= decode s < 676000.
Proof.
  destruct s as [|a [|b [|c [|d [|e [|? ?]]]]]]; try discriminate.
  cbn [is_serial decode]. unfold digit_value.
  rewrite !andb_true_iff, !is_upper_iff, !is_digit_iff.
  change (Z.of_N (N_of_ascii "A")) with 65.
  change (Z.of_N (N_of_ascii "0")) with 48.
  lia.
Qed.

Lemma split_digit (r q b : Z) :
  0 <= r < b -> (r + b * q) mod b = r /\ (r + b * q) / b = q.
Proof.
  intros H. split.
  - rewrite Z.add_comm, Z.mul_comm, Z.add_comm, Z_mod_plus_full.
    apply Z.mod_small, H.
  - symmetry. apply Z.div_unique with (r := r); lia.
Qed.

Lemma char_of_digit_value (o : N) (c : ascii) :
  Z.of_N o <= Z.of_N (N_of_ascii c) ->
  ascii_of_N (o + Z.to_N (Z.of_N (N_of_ascii c) - Z.of_N o)) = c.
Proof.
  intros H.
  replace (o + Z.to_N (Z.of_N (N_of_ascii c) - Z.of_N o))%N
    with (N_of_ascii c) by lia.
  apply ascii_N_embedding.
Qed.

Lemma encode_decode (s : string) :
  is_serial s = true -> mixed_radix_encode radices offsets (decode s) = s.
Proof.
  destruct s as [|a [|b [|c [|d [|e [|? ?]]]]]]; try discriminate.
  cbn [is_serial]. rewrite !andb_true_iff, !is_upper_iff, !is_digit_iff.
  intros [[[[Ha Hb] Hc] Hd] He].
  rewrite encode_unfold. cbn [decode]. unfold digit_value.
  change (Z.of_N (N_of_ascii "A")) with (Z.of_N 65).
  change (Z.of_N (N_of_ascii "0")) with (Z.of_N 48).
  repeat match goal with
         | |- context [(?r + ?b * ?q) mod ?b] =>
             let M := fresh "M" in
             let D := fresh "D" in
             destruct (split_digit r q b ltac:(lia)) as [M D];
             rewrite !M, !D; clear M D
         end.
  rewrite Z.mod_small by lia.
  rewrite !char_of_digit_value by (cbn; lia). reflexivity.
Qed.

(** *** Successive calls *)

Lemma serial_calls_iter (n : nat) (g : t) :
  calls next n g =
    Some (map (fun i => identifier (Nat.iter i after_call g)) (seq 0 n),
          Nat.iter n after_call g).
Proof.
  apply (calls_iter next (fun _ => True) identifier after_call); auto.
  intros g' _. apply serial_next_step.
Qed.

Lemma state_of_iter (n : nat) (g : t) :
  Lcg.x_ (lcg_ (Nat.iter n after_call g))
  = Nat.iter n Lcg.advance (Lcg.x_ (lcg_ g)).
Proof.
  induction n as [|n IH]; [reflexivity|].
  rewrite !Nat.iter_succ. unfold after_call at 1, draw. cbn [lcg_ Lcg.x_].
  rewrite IH. reflexivity.
Qed.

Lemma draw_of_iter (n : nat) (g : t) :
  draw (Nat.iter n after_call g) = Nat.iter n Lcg.advance (draw g).
Proof.
  unfold draw. rewrite state_of_iter, <- Nat.iter_succ, Nat.iter_succ_r.
  reflexivity.
Qed.

(** Two points of an orbit less than a period apart differ. *)
Lemma orbit_apart (x : Z) (i j : nat) :
  0 <= x < Lcg.modulus -> (i < j)%nat -> Z.of_nat (j - i) < Lcg.modulus ->
  Nat.iter i Lcg.advance x <> Nat.iter j Lcg.advance x.
Proof.
  intros Hx Hij Hd E.
  set (k := (j - i)%nat) in *.
  assert (Ej : j = (k + i)%nat) by lia.
  rewrite Ej, Nat.iter_add in E. symmetry in E.
  apply LcgFacts.fixed_point_iff in E; [|apply LcgFacts.iter_range, Hx].
  revert E. apply LcgFacts.no_small_period0; lia.
Qed.

Lemma serial_outputs_NoDup (n : nat) (g : t) :
  Z.of_nat n <= Lcg.modulus ->
  NoDup (map (fun i => identifier (Nat.iter i after_call g)) (seq 0 n)).
Proof.
  intros Hn. apply Injective_map_NoDup_in; [|apply seq_NoDup].
  intros i j Hi Hj E. apply in_seq in Hi, Hj.
  unfold identifier in E.
  pose proof (draw_range g) as R.
  apply encode_inj in E; try apply draw_range.
  rewrite !draw_of_iter in E.
  destruct (Nat.lt_trichotomy i j) as [L|[L|L]]; [|exact L|].
  - exfalso. revert E. apply orbit_apart; [exact R | exact L | lia].
  - exfalso. symmetry in E. revert E.
    apply orbit_apart; [exact R | exact L | lia].
Qed.

Lemma serial_outputs_format (n : nat) (g : t) :
  Forall (fun s => is_serial s = true)
    (map (fun i => identifier (Nat.iter i after_call g)) (seq 0 n)).
Proof.
  apply Forall_forall. intros s Hs. apply in_map_iff in Hs.
  destruct Hs as [i [<- _]]. apply encode_format.
Qed.

End SerialFacts.

Module SerialTheorems.

Import SerialNumberGenerator SerialSpec SerialFacts.

(** C1.  The engine under the serial generator is the recurrence
    state := (261 * state + 1) mod 676000, a call returning the new state,
    seeded at 123456; its period is exactly 676000: from every state of
    [0, 676000), 676000 steps lead back to that state and no smaller
    positive number of steps does. *)
Theorem lcg_full_period :
  (forall e, Lcg.call e = ((261 * Lcg.x_ e + 1) mod 676000,
                           {| Lcg.x_ := (261 * Lcg.x_ e + 1) mod 676000 |})) /\
  Lcg.x_ (lcg_ init) = 123456 /\
  (forall x, 0 <= x < 676000 ->
     Nat.iter (Z.to_nat 676000) Lcg.advance x = x /\
     (forall k, 0 < k < 676000 -> Nat.iter (Z.to_nat k) Lcg.advance x <> x)).
Proof.
  split; [reflexivity|]. split; [reflexivity|].
  intros x Hx. split.
  - apply LcgFacts.fixed_point_iff; [exact Hx|].
    exact LcgFacts.period0_modulus.
  - intros k Hk E.
    apply LcgFacts.fixed_point_iff in E; [|exact Hx].
    revert E. apply LcgFacts.no_small_period0; unfold Lcg.modulus; lia.
Qed.

Lemma lcg_full_period_witness :
  Nat.iter (Z.to_nat 676000) Lcg.advance 123456 = 123456 /\
  Nat.iter (Z.to_nat 1) Lcg.advance 123456 <> 123456.
Proof.
  destruct lcg_full_period as [_ [_ P]].
  destruct (P 123456) as [A B]; [lia|].
  split; [exact A|]. apply B. lia.
Defined.

(** C2.  676000 calls of [next] on a fresh serial generator are all defined
    and return 676000 pairwise distinct identifiers, each made of two
    uppercase ASCII letters followed by three ASCII decimal digits. *)
Theorem serial_full_cycle :
  exists os g',
    calls next (Z.to_nat 676000) init = Some (os, g') /\
    List.length os = Z.to_nat 676000 /\
    NoDup os /\
    Forall (fun s => is_serial s = true /\ String.length s = 5%nat) os.
Proof.
  rewrite serial_calls_iter.
  eexists; eexists; split; [reflexivity|]. split; [|split].
  - rewrite length_map, length_seq. reflexivity.
  - apply serial_outputs_NoDup. unfold Lcg.modulus. lia.
  - eapply Forall_impl; [|apply serial_outputs_format].
    intros s Hs. split; [exact Hs|].
    destruct s as [|a [|b [|c [|d [|e [|? ?]]]]]]; try discriminate.
    reflexivity.
Qed.

(** X2.  [test_SerialNumberGenerator] runs without undefined behaviour and
    its assertion [s.size() == 676000] holds. *)
Lemma test_SerialNumberGenerator_passes :
  test_SerialNumberGenerator = Some true.
Proof.
  pose proof (serial_calls_iter (Z.to_nat 676000) init) as E.
  assert (N : NoDup (map (fun i => identifier (Nat.iter i after_call init))
                       (seq 0 (Z.to_nat 676000))))
    by (apply serial_outputs_NoDup; unfold Lcg.modulus; lia).
  destruct (insert_loop_distinct string_dec next _ init _ _ E N)
    as [s [Es Ls]].
  unfold test_SerialNumberGenerator. cbv zeta. rewrite Es. cbn [bind].
  rewrite Ls, Z2Nat.id by lia. reflexivity.
Qed.

(** C3.  A call of [next] draws one value v of [0, 676000) from the
    recurrence, v = (261 * state + 1) mod 676000 with v the new state of the
    engine, and returns the mixed-radix decomposition of v, low-order digit
    first,
    over the radices 26, 26, 10, 10, 10 with the offsets 'A', 'A', '0', '0',
    '0'; the characters stand in the identifier in the order in which they
    are extracted. *)
Theorem serial_next_decomposition (g : t) :
  exists v lcg',
    Lcg.call (lcg_ g) = (v, lcg') /\
    v = (261 * Lcg.x_ (lcg_ g) + 1) mod 676000 /\
    lcg' = {| Lcg.x_ := v |} /\
    0 <= v < 676000 /\
    next g = Some (mixed_radix_encode [26; 26; 10; 10; 10]
                     ["A"; "A"; "0"; "0"; "0"]%char v,
                   {| lcg_ := lcg' |}) /\
    mixed_radix_encode [26; 26; 10; 10; 10] ["A"; "A"; "0"; "0"; "0"]%char v =
      String (ascii_of_N (N_of_ascii "A" + Z.to_N (v mod 26)))
     (String (ascii_of_N (N_of_ascii "A" + Z.to_N (v / 26 mod 26)))
     (String (ascii_of_N (N_of_ascii "0" + Z.to_N (v / 26 / 26 mod 10)))
     (String (ascii_of_N (N_of_ascii "0" + Z.to_N (v / 26 / 26 / 10 mod 10)))
     (String (ascii_of_N
                (N_of_ascii "0" + Z.to_N (v / 26 / 26 / 10 / 10 mod 10)))
      EmptyString)))).
Proof.
  exists (draw g), {| Lcg.x_ := draw g |}.
  split; [reflexivity|]. split; [reflexivity|]. split; [reflexivity|].
  split; [apply draw_range|].
  split; [apply serial_next_step | reflexivity].
Qed.

(** C4.  The decomposition [next] applies to the value drawn is a bijection
    from [0, 676000) onto the identifiers of the format: it is defined on
    the range with values in the format, distinct values give distinct
    identifiers, and every identifier of the format is the image of a value
    of the range; the product of the radices is the modulus of the engine. *)
Theorem decompose_bijection :
  (forall g, next g =
     let '(r, lcg') := Lcg.call (lcg_ g) in
     serial <- decompose (CInt.of_unsigned r) ;;
     Some (serial, {| lcg_ := lcg' |})) /\
  26 * 26 * 10 * 10 * 10 = Lcg.modulus /\
  (forall v, 0 <= v < 676000 ->
     exists s, decompose v = Some s /\ is_serial s = true) /\
  (forall v w s, 0 <= v < 676000 -> 0 <= w < 676000 ->
     decompose v = Some s -> decompose w = Some s -> v = w) /\
  (forall s, is_serial s = true ->
     exists v, 0 <= v < 676000 /\ decompose v = Some s).
Proof.
  split; [exact next_decompose|]. split; [reflexivity|]. split; [|split].
  - intros v Hv. eexists. split; [apply decompose_spec; lia|].
    apply encode_format.
  - intros v w s Hv Hw Ev Ew.
    rewrite decompose_spec in Ev, Ew by lia.
    apply encode_inj; [exact Hv | exact Hw | congruence].
  - intros s Hs. exists (decode s).
    pose proof (decode_range s Hs) as R. split; [exact R|].
    rewrite decompose_spec by lia. f_equal. apply encode_decode, Hs.
Qed.

Lemma decompose_bijection_witness :
  (exists s, decompose 450017 = Some s /\ is_serial s = true) /\
  (decompose 450017 = Some "JS566"%string ->
   decompose 450017 = Some "JS566"%string -> 450017 = 450017) /\
  (exists v, 0 <= v < 676000 /\ decompose v = Some "ZZ999"%string).
Proof.
  destruct decompose_bijection as [_ [_ [A [B C]]]].
  split; [apply A; lia|]. split.
  - apply (B 450017 450017 "JS566"%string); lia.
  - apply C. reflexivity.
Defined.

(** C7.  The first identifier of a fresh serial generator is the
    decomposition of the value one step of the recurrence makes of the
    seed, (261 * 123456 + 1) mod 676000 = 450017: the string "JS566". *)
Theorem serial_first_identifier :
  (261 * 123456 + 1) mod 676000 = 450017 /\
  Lcg.call (lcg_ init) = (450017, {| Lcg.x_ := 450017 |}) /\
  mixed_radix_encode radices offsets 450017 = "JS566"%string /\
  next init = Some ("JS566"%string, {| lcg_ := {| Lcg.x_ := 450017 |} |}) /\
  (exists g', calls next 1 init = Some (["JS566"%string], g')).
Proof.
  split; [reflexivity|]. split; [reflexivity|]. split; [reflexivity|].
  split; [reflexivity|]. eexists. reflexivity.
Qed.

(** In the semantics of [may_run] determinism is not for free: a cyclic
    counter that stands at [INT_MAX] has runs of one call with different
    results. *)
Lemma may_run_not_functional :
  may_run Z256Generator.next 1 {| Z256Generator.state_ := 2147483647 |}
    [0] Z256Generator.init /\
  may_run Z256Generator.next 1 {| Z256Generator.state_ := 2147483647 |}
    [1] Z256Generator.init.
Proof.
  split; (econstructor; [apply call_undefined; reflexivity | constructor]).
Qed.



End SerialTheorems.


(** * Further properties of the code *)

(** ** The cyclic counter beyond a fresh run *)

Module Z256Extras.

Import Z256Generator Z256Step Z256Facts.

(** X3.  Wherever a run that started fresh stands, the next 256 calls return
    every residue modulo 256 exactly once and leave the counter in the state
    it had before them. *)
Theorem Z256_any_window (k : nat) :
  exists os0 g,
    calls next k init = Some (os0, g) /\
    exists os,
      calls next 256 g = Some (os, g) /\
      NoDup os /\
      (forall r, 0 <= r < 256 -> count_occ Z.eq_dec os r = 1%nat).
Proof.
  destruct (Z256Theorems.z256_calls_defined k) as [os0 [g [E [I _]]]].
  exists os0, g. split; [exact E|].
  exists (map (fun i => (state_ g + 191 * Z.of_nat (S i)) mod 256) (seq 0 256)).
  pose proof (Z256Theorems.outputs_NoDup (state_ g) 256 (Nat.le_refl _)) as N.
  split; [|split; [exact N|]].
  - rewrite (z256_calls_closed_form 256 g I). do 2 f_equal.
    destruct g as [s]. unfold Inv in I. cbn [state_] in *. f_equal.
    change (191 * Z.of_nat 256) with (191 * 256).
    rewrite Z_mod_plus_full. apply Z.mod_small, I.
  - intros r Hr. apply NoDup_count_occ'; [exact N|].
    apply Z256Theorems.all_residues; try assumption.
    + rewrite length_map, length_seq. reflexivity.
    + apply Z256Theorems.outputs_range.
Qed.

Lemma Z256_any_window_witness :
  exists os0 g,
    calls next 5 init = Some (os0, g) /\
    exists os,
      calls next 256 g = Some (os, g) /\
      NoDup os /\ count_occ Z.eq_dec os 42 = 1%nat.
Proof.
  destruct (Z256_any_window 5) as [os0 [g [E [os [E' [N C]]]]]].
  exists os0, g. split; [exact E|]. exists os.
  split; [exact E'|]. split; [exact N|]. apply C. lia.
Defined.

(** X4.  Random access: the [n]-th value a fresh counter returns is
    (42 + 191 n) mod 256, and this is also its state after [n] calls. *)
Theorem Z256_nth_output_formula (n : nat) :
  (1 <= n)%nat ->
  nth_output n = Some ((42 + 191 * Z.of_nat n) mod 256) /\
  exists os,
    calls next n init =
      Some (os, {| state_ := (42 + 191 * Z.of_nat n) mod 256 |}).
Proof.
  intros Hn. split; [apply Z256Theorems.nth_output_closed_form, Hn|].
  rewrite (z256_calls_closed_form n init z256_init_Inv).
  eexists. reflexivity.
Qed.

Lemma Z256_nth_output_formula_witness :
  nth_output 1000 = Some ((42 + 191 * 1000) mod 256) /\
  exists os,
    calls next 1000 init = Some (os, {| state_ := (42 + 191 * 1000) mod 256 |}).
Proof.
  apply (Z256_nth_output_formula 1000). apply Nat.leb_le. reflexivity.
Defined.

(** X5.  Outside the invariant [next] is not the residue map: on an [int]
    state above [INT_MAX - 191] the addition overflows and the call is
    undefined; on a state below -191 the call is defined but truncating [%]
    returns a value of (-256, 0], congruent to state + 191 modulo 256, which
    also becomes the new state. *)
Theorem Z256_next_outside_invariant (g : t) :
  CInt.in_range (state_ g) = true ->
  (next g = None <-> CInt.INT_MAX - 191 < state_ g) /\
  (state_ g < -191 ->
   exists r, next g = Some (r, {| state_ := r |}) /\
             -256 < r <= 0 /\ (256 | state_ g + 191 - r)).
Proof.
  unfold CInt.in_range, CInt.INT_MIN, CInt.INT_MAX.
  rewrite andb_true_iff, !Z.leb_le. intros [Lo Hi].
  unfold next, CInt.add, CInt.in_range, CInt.INT_MIN, CInt.INT_MAX.
  destruct (Z.leb_spec (-2147483648) (state_ g + 191)) as [L|L]; [|lia].
  cbn [andb].
  destruct (Z.leb_spec (state_ g + 191) 2147483647) as [H|H]; cbn [bind].
  - assert (R : CInt.rem (state_ g + 191) 256
                = Some (Z.rem (state_ g + 191) 256)).
    { unfold CInt.rem. cbn [Z.eqb orb andb].
      rewrite andb_false_r. reflexivity. }
    rewrite R. cbn [bind]. split.
    + split; [discriminate | lia].
    + intros Hneg. eexists. split; [reflexivity|].
      pose proof (Z.rem_nonpos (state_ g + 191) 256 ltac:(lia) ltac:(lia)).
      pose proof (Z.rem_bound_abs (state_ g + 191) 256 ltac:(lia)).
      split; [lia|].
      exists (Z.quot (state_ g + 191) 256).
      pose proof (Z.quot_rem' (state_ g + 191) 256). lia.
  - split; [split; [lia | reflexivity] | lia].
Qed.

Lemma Z256_next_outside_invariant_witness :
  next {| state_ := 2147483647 |} = None /\
  exists r, next {| state_ := -300 |} = Some (r, {| state_ := r |}) /\
            -256 < r <= 0.
Proof.
  split.
  - apply (Z256_next_outside_invariant {| state_ := 2147483647 |});
      [reflexivity | cbn; lia].
  - destruct (Z256_next_outside_invariant {| state_ := -300 |} eq_refl)
      as [_ P].
    destruct P as [r [E [B _]]]; [cbn; lia|]. exists r. split; assumption.
Defined.

End Z256Extras.

(** ** The serial generator beyond a fresh run *)

Module SerialExtras.

Import SerialNumberGenerator SerialSpec SerialOutputs SerialFacts.

Lemma identifiers_cover (os : list string) :
  List.length os = Z.to_nat 676000 -> NoDup os ->
  Forall (fun s => is_serial s = true) os ->
  forall s, is_serial s = true -> In s os.
Proof.
  intros Hlen Hnd Hfmt s Hs.
  set (all := map (fun i => mixed_radix_encode radices offsets (Z.of_nat i))
                (seq 0 (Z.to_nat 676000))).
  assert (I : incl all os).
  { apply NoDup_length_incl; [exact Hnd | |].
    - unfold all. rewrite length_map, length_seq, Hlen. apply Nat.le_refl.
    - intros x Hx. rewrite Forall_forall in Hfmt. specialize (Hfmt x Hx).
      pose proof (decode_range x Hfmt) as R.
      apply in_map_iff. exists (Z.to_nat (decode x)). split.
      + rewrite Z2Nat.id by lia. apply encode_decode, Hfmt.
      + apply in_seq. lia. }
  apply I. pose proof (decode_range s Hs) as R.
  apply in_map_iff. exists (Z.to_nat (decode s)). split.
  - rewrite Z2Nat.id by lia. apply encode_decode, Hs.
  - apply in_seq. lia.
Qed.

(** X6.  From every state of the generator, also one that is not the fresh
    one, the next 676000 calls are defined and return every identifier of
    the format exactly once, and nothing else. *)
Theorem serial_any_window (g : t) :
  exists os g',
    calls next (Z.to_nat 676000) g = Some (os, g') /\
    NoDup os /\
    (forall s, count_occ string_dec os s
               = if is_serial s then 1%nat else 0%nat).
Proof.
  rewrite serial_calls_iter.
  eexists; eexists; split; [reflexivity|].
  assert (N : NoDup (map (fun i => identifier (Nat.iter i after_call g))
                       (seq 0 (Z.to_nat 676000))))
    by (apply serial_outputs_NoDup; unfold Lcg.modulus; lia).
  pose proof (serial_outputs_format (Z.to_nat 676000) g) as F.
  split; [exact N|]. intros s.
  destruct (is_serial s) eqn:Hs.
  - apply NoDup_count_occ'; [exact N|].
    apply identifiers_cover; try assumption.
    rewrite length_map, length_seq. reflexivity.
  - apply count_occ_not_In. intros I.
    rewrite Forall_forall in F. specialize (F s I). congruence.
Qed.

Lemma nth_identifier_closed_form (n : nat) :
  (1 <= n)%nat ->
  nth_identifier n =
    Some (mixed_radix_encode radices offsets (Nat.iter n Lcg.advance 123456)).
Proof.
  intros Hn. unfold nth_identifier. rewrite serial_calls_iter. cbn [bind].
  rewrite nth_error_map, nth_error_seq.
  replace (pred n <? n)%nat with true by (symmetry; apply Nat.ltb_lt; lia).
  cbn [option_map Nat.add]. unfold identifier. rewrite draw_of_iter.
  change (draw init) with (Lcg.advance 123456).
  rewrite <- Nat.iter_succ_r.
  replace (S (pred n)) with n by lia. reflexivity.
Qed.

(** X7.  The sequence of identifiers of a fresh generator has period
    exactly 676000: after 676000 calls the generator is in its initial state
    again, the (n+676000)-th identifier is the n-th for every n >= 1, and
    two identifiers less than 676000 calls apart always differ. *)
Theorem serial_period :
  (exists os, calls next (Z.to_nat 676000) init = Some (os, init)) /\
  (forall n, (1 <= n)%nat ->
     exists s, nth_identifier n = Some s /\
               nth_identifier (n + Z.to_nat 676000) = Some s) /\
  (forall n p, (1 <= n)%nat -> 0 < Z.of_nat p < 676000 ->
     nth_identifier (n + p) <> nth_identifier n).
Proof.
  assert (R : 0 <= 123456 < Lcg.modulus) by (unfold Lcg.modulus; lia).
  assert (P : Nat.iter (Z.to_nat 676000) Lcg.advance 123456 = 123456).
  { apply LcgFacts.fixed_point_iff; [exact R|].
    exact LcgFacts.period0_modulus. }
  split; [|split].
  - assert (B : Nat.iter (Z.to_nat 676000) after_call init = init).
    { pose proof (state_of_iter (Z.to_nat 676000) init) as E.
      change (Lcg.x_ (lcg_ init)) with 123456 in E. rewrite P in E.
      destruct (Nat.iter (Z.to_nat 676000) after_call init) as [[x]].
      cbn [lcg_ Lcg.x_] in E. subst x. reflexivity. }
    exists (map (fun i => identifier (Nat.iter i after_call init))
              (seq 0 (Z.to_nat 676000))).
    rewrite serial_calls_iter, B. reflexivity.
  - intros n Hn. eexists. split; [apply nth_identifier_closed_form, Hn|].
    rewrite nth_identifier_closed_form by lia.
    rewrite Nat.iter_add, P. reflexivity.
  - intros n p Hn Hp.
    rewrite !nth_identifier_closed_form by lia.
    intros E. apply Some_inj in E.
    apply encode_inj in E;
      try (apply LcgFacts.iter_range; exact R).
    symmetry in E. revert E.
    apply orbit_apart; [exact R | lia | unfold Lcg.modulus; lia].
Qed.

Lemma serial_period_witness :
  (exists s, nth_identifier 1 = Some s /\
             nth_identifier (1 + Z.to_nat 676000) = Some s) /\
  nth_identifier (1 + 1) <> nth_identifier 1.
Proof.
  destruct serial_period as [_ [A B]]. split.
  - apply (A 1%nat). apply Nat.le_refl.
  - apply (B 1%nat 1%nat); [apply Nat.le_refl | cbn; lia].
Defined.

(** X8.  What one [add_digit] does to a non-negative value, for a base and
    an offset that keep the character inside 7 bits: it is defined, leaves
    the characters already in the string in place and appends exactly one,
    whose code lies in [offset, offset + base); the value returned is the
    quotient, and value, quotient and appended character satisfy
    value = base * quotient + (code - offset), so the digit can be read back
    from the string. *)
Theorem add_digit_contract (serial : string) (val base : Z) (offset : ascii) :
  0 <= val -> 0 < base -> Z.of_N (N_of_ascii offset) + base <= 128 ->
  exists c q,
    add_digit serial val base offset = Some ((serial ++ String c "")%string, q)
    /\ 0 <= q <= val
    /\ Z.of_N (N_of_ascii offset) <= Z.of_N (N_of_ascii c)
       < Z.of_N (N_of_ascii offset) + base
    /\ val = base * q + (Z.of_N (N_of_ascii c) - Z.of_N (N_of_ascii offset)).
Proof.
  intros Hv Hb Ho.
  pose proof (Z.mod_pos_bound val base Hb) as Hr.
  exists (ascii_of_N (N_of_ascii offset + Z.to_N (val mod base))), (val / base).
  split; [apply add_digit_spec; assumption|].
  rewrite code_of_digit by lia.
  rewrite N2Z.inj_add, Z2N.id by lia.
  pose proof (Z.div_mod val base ltac:(lia)) as D.
  assert (0 <= val / base) by (apply Z.div_pos; lia).
  split; [nia|]. split; lia.
Qed.

Lemma add_digit_contract_witness :
  exists c q,
    add_digit "JS" 665 10 "0" = Some (("JS" ++ String c "")%string, q)
    /\ 0 <= q <= 665
    /\ 48 <= Z.of_N (N_of_ascii c) < 48 + 10
    /\ 665 = 10 * q + (Z.of_N (N_of_ascii c) - 48).
Proof.
  apply (add_digit_contract "JS" 665 10 "0"); cbn; lia.
Defined.

Lemma digit_of_mod (a b c : Z) :
  0 < b -> 0 < c ->
  (a mod (b * c)) mod b = a mod b /\ (a mod (b * c)) / b = (a / b) mod c.
Proof.
  intros Hb Hc. rewrite Z.rem_mul_r by lia.
  apply split_digit. apply Z.mod_pos_bound, Hb.
Qed.

(** X9.  The five digits depend on the value modulo 676000 only: every
    non-negative [int] decomposes to the identifier of its residue.  The
    decomposition is therefore injective on no range of values longer than
    the product of the radices. *)
Theorem decompose_mod (v : Z) :
  0 <= v -> decompose v = decompose (v mod 676000).
Proof.
  intros Hv.
  pose proof (Z.mod_pos_bound v 676000 eq_refl) as R.
  rewrite !decompose_spec by lia. rewrite !encode_unfold.
  destruct (digit_of_mod v 26 26000 eq_refl eq_refl) as [M1 D1].
  destruct (digit_of_mod (v / 26) 26 1000 eq_refl eq_refl) as [M2 D2].
  destruct (digit_of_mod (v / 26 / 26) 10 100 eq_refl eq_refl) as [M3 D3].
  destruct (digit_of_mod (v / 26 / 26 / 10) 10 10 eq_refl eq_refl) as [M4 D4].
  change (26 * 26000) with 676000 in *. change (26 * 1000) with 26000 in *.
  change (10 * 100) with 1000 in *. change (10 * 10) with 100 in *.
  rewrite M1, D1, M2, D2, M3, D3, M4, D4, Z.mod_mod by lia.
  reflexivity.
Qed.

Lemma decompose_mod_witness :
  decompose 676000 = decompose (676000 mod 676000).
Proof. apply (decompose_mod 676000). lia. Defined.

(** X10.  One identifier gives the generator away: the state a call leaves
    behind is the value its identifier stands for, so whoever sees one
    identifier knows the state and with it every later identifier. *)
Theorem serial_state_from_identifier (g : t) (s : string) (g' : t) :
  next g = Some (s, g') ->
  is_serial s = true /\ g' = {| lcg_ := {| Lcg.x_ := decode s |} |}.
Proof.
  rewrite serial_next_step. intros E. apply Some_inj in E.
  assert (Es : identifier g = s) by congruence.
  assert (Eg : after_call g = g') by congruence.
  subst s g'. split; [apply encode_format|].
  unfold after_call, identifier. rewrite decode_encode; [reflexivity|].
  apply draw_range.
Qed.

Lemma serial_state_from_identifier_witness :
  is_serial "JS566" = true /\
  {| lcg_ := {| Lcg.x_ := 450017 |} |}
  = {| lcg_ := {| Lcg.x_ := decode "JS566" |} |}.
Proof.
  apply (serial_state_from_identifier init). reflexivity.
Defined.

(** X11.  A call of the engine permutes the states of [0, 676000): engines
    in different states of the range return different values, and every
    value of the range is returned from exactly such a state. *)
Theorem lcg_call_permutes :
  (forall e1 e2,
     0 <= Lcg.x_ e1 < 676000 -> 0 <= Lcg.x_ e2 < 676000 ->
     fst (Lcg.call e1) = fst (Lcg.call e2) -> e1 = e2) /\
  (forall v, 0 <= v < 676000 ->
     exists e, 0 <= Lcg.x_ e < 676000 /\ fst (Lcg.call e) = v).
Proof.
  assert (S1 : Z.to_nat 676000 = S (Z.to_nat 675999)) by lia.
  assert (P : forall x, 0 <= x < 676000 ->
                Nat.iter (Z.to_nat 675999) Lcg.advance (Lcg.advance x) = x).
  { intros x Hx. rewrite <- Nat.iter_succ_r, <- S1.
    apply LcgFacts.fixed_point_iff; [exact Hx|].
    exact LcgFacts.period0_modulus. }
  split.
  - intros [x] [y]. cbn [Lcg.x_ Lcg.call fst]. intros Hx Hy E.
    f_equal. rewrite <- (P x Hx), <- (P y Hy), E. reflexivity.
  - intros v Hv.
    exists {| Lcg.x_ := Nat.iter (Z.to_nat 675999) Lcg.advance v |}.
    cbn [Lcg.x_ Lcg.call fst]. split.
    + apply (LcgFacts.iter_range _ v Hv).
    + rewrite <- Nat.iter_succ, <- S1.
      apply LcgFacts.fixed_point_iff; [exact Hv|].
      exact LcgFacts.period0_modulus.
Qed.

Lemma lcg_call_permutes_witness :
  {| Lcg.x_ := 123456 |} = {| Lcg.x_ := 123456 |} /\
  exists e, 0 <= Lcg.x_ e < 676000 /\ fst (Lcg.call e) = 0.
Proof.
  destruct lcg_call_permutes as [A B]. split.
  - apply A; cbn; lia.
  - apply B. lia.
Defined.

End SerialExtras.

(** ** What the tests detect *)

Section TestsExtras.

Context {G R : Type}.
Variable eq_dec : forall a b : R, {a = b} + {a <> b}.
Variable next : G -> option (R * G).

Lemma set_add_old (a : R) (s : set R) : In a s -> set_add eq_dec a s = s.
Proof.
  induction s as [|b s IH]; intros H; [destruct H|].
  cbn [set_add]. destruct (eq_dec a b) as [E|N]; [reflexivity|].
  f_equal. apply IH. destruct H as [H|H]; [congruence | exact H].
Qed.

Lemma insert_all_bound (os : list R) :
  forall s,
    (List.length (fold_left (fun s v => set_add eq_dec v s) os s)
     <= List.length s + List.length os)%nat.
Proof.
  induction os as [|o os IH]; intros s; cbn [fold_left List.length]; [lia|].
  destruct (in_dec eq_dec o s) as [I|N].
  - rewrite set_add_old by exact I. specialize (IH s). lia.
  - specialize (IH (set_add eq_dec o s)).
    rewrite set_add_new in IH by exact N. lia.
Qed.

Lemma insert_all_full (os : list R) :
  forall s,
    List.length (fold_left (fun s v => set_add eq_dec v s) os s)
    = (List.length s + List.length os)%nat ->
    NoDup os /\ (forall x, In x os -> ~ In x s).
Proof.
  induction os as [|o os IH]; intros s E.
  - split; [constructor | intros x []].
  - cbn [fold_left List.length] in E.
    destruct (in_dec eq_dec o s) as [I|N].
    + exfalso. rewrite set_add_old in E by exact I.
      pose proof (insert_all_bound os s). lia.
    + destruct (IH (set_add eq_dec o s)) as [Nd D].
      { rewrite set_add_new by exact N. lia. }
      split.
      * constructor; [|exact Nd]. intros I. apply (D o I).
        apply set_add_iff. left. reflexivity.
      * intros x [<-|Hx]; [exact N|]. intros Hs. apply (D x Hx).
        apply set_add_iff. right. exact Hs.
Qed.

(** X12.  The loop of the tests is an exact detector of repetitions, for
    any generator: when its [n] calls are defined, the set it builds has [n]
    elements if and only if the [n] values returned are pairwise
    distinct. *)
Theorem insert_loop_detects (n : nat) (g : G) (os : list R) (g' : G) :
  calls next n g = Some (os, g') ->
  exists s,
    insert_loop eq_dec next n (empty_set R) g = Some (s, g') /\
    (List.length s = n <-> NoDup os).
Proof.
  intros E. rewrite insert_loop_calls, E. cbn [bind].
  eexists. split; [reflexivity|].
  pose proof (calls_length next n g os g' E) as L. split.
  - intros H. apply (insert_all_full os (empty_set R)).
    cbn [empty_set List.length Nat.add]. lia.
  - intros N. rewrite insert_all_length; [|exact N|intros x _ []].
    cbn [empty_set List.length Nat.add]. exact L.
Qed.

End TestsExtras.

Lemma insert_loop_detects_witness :
  exists s,
    insert_loop Z.eq_dec Z256Generator.next 3 (empty_set Z)
      Z256Generator.init
    = Some (s, {| Z256Generator.state_ := 103 |}) /\
    (List.length s = 3%nat <-> NoDup [233; 168; 103]).
Proof.
  apply (insert_loop_detects Z.eq_dec Z256Generator.next 3
           Z256Generator.init [233; 168; 103]).
  reflexivity.
Defined.


(** * [code/surprising-comma-operator-bug.cpp]: the comma initialiser *)

Module CommaInitializerFacts.

Import CommaInitializer.

(** X13.  [vec << v0, v1, ..., vk] with overloaded commas: for at most three
    commas it is defined, writes [v0 .. vk] to the elements 0 .. k in this
    order, leaves the elements after them as they were (so a shorter list
    leaves stale or indeterminate elements behind) and ends with index
    k + 1; a fourth comma writes behind the array and is undefined. *)
Theorem comma_chain {T : Type} (v0 : T) (vs : list T) (vec : Vec4 T) :
  List.length (values vec) = 4%nat ->
  ('(c, vec') <- shl v0 vec ;; commas vs c vec') =
    if (List.length vs <=? 3)%nat
    then Some ({| idx := Z.of_nat (1 + List.length vs) |},
               {| values := map Some (v0 :: vs)
                            ++ skipn (1 + List.length vs) (values vec) |})
    else None.
Proof.
  destruct vec as [l]. cbn [values]. intros L.
  destruct l as [|a [|b [|c [|d [|e l]]]]]; try discriminate L.
  destruct vs as [|v1 [|v2 [|v3 [|v4 vs]]]]; reflexivity.
Qed.

Lemma comma_chain_witness :
  ('(c, vec') <- shl 1 (declare None) ;; commas [2; 3; 4] c vec') =
    Some ({| idx := 4 |}, {| values := [Some 1; Some 2; Some 3; Some 4] |})
  /\
  ('(c, vec') <- shl 1 (declare (Some 0)) ;; commas [2; 3; 4; 5] c vec')
  = None.
Proof.
  split.
  - apply (comma_chain 1 [2; 3; 4] (declare None)). reflexivity.
  - apply (comma_chain 1 [2; 3; 4; 5] (declare (Some 0))). reflexivity.
Defined.

End CommaInitializerFacts.

(** * [code/json-ultimate-copy.cpp]: the hand-written deep copy *)

Module DeepCopyFacts.

Import seq3d.

Lemma modify_last {A : Type} (f : A -> A) (l : list A) (x : A) :
  modify (List.length l) f (l ++ [x]) = l ++ [f x].
Proof. induction l as [|a l IH]; cbn; [reflexivity | rewrite IH; reflexivity]. Qed.

Lemma nth_last {A : Type} (l : list A) (x d : A) :
  nth (List.length l) (l ++ [x]) d = x.
Proof. induction l as [|a l IH]; cbn; [reflexivity | exact IH]. Qed.

Section Loops.

Variable float : Type.

Lemma copy_loops_bodies (values : out_t float) :
  copy_loops float values = fold_left (outer_body float) values [].
Proof. reflexivity. Qed.

(** The innermost loop appends the elements of the array to the vector the
    two references lead to. *)
Lemma inner_loop (xs : list float) :
  forall (done1 : in_t float) (done2 : list (list float)) (cur : list float),
    fold_left (inner_body float (List.length done1) (List.length done2))
      xs (done1 ++ [done2 ++ [cur]])
    = done1 ++ [done2 ++ [cur ++ xs]].
Proof.
  induction xs as [|x xs IH]; intros done1 done2 cur; cbn [fold_left].
  - rewrite app_nil_r. reflexivity.
  - unfold inner_body at 2. rewrite !modify_last. unfold push_back_vec.
    rewrite IH, <- app_assoc. reflexivity.
Qed.

Lemma middle_loop (xss : list (list float)) :
  forall (done1 : in_t float) (done2 : list (list float)),
    fold_left (middle_body float (List.length done1)) xss (done1 ++ [done2])
    = done1 ++ [done2 ++ xss].
Proof.
  induction xss as [|xs xss IH]; intros done1 done2; cbn [fold_left].
  - rewrite app_nil_r. reflexivity.
  - unfold middle_body at 2. rewrite nth_last, modify_last.
    cbn [emplace_back fst]. rewrite inner_loop. cbn [app].
    rewrite IH, <- app_assoc. reflexivity.
Qed.

Lemma outer_loop (xsss : out_t float) :
  forall done1 : in_t float,
    fold_left (outer_body float) xsss done1 = done1 ++ xsss.
Proof.
  induction xsss as [|xss xsss IH]; intros done1; cbn [fold_left].
  - rewrite app_nil_r. reflexivity.
  - unfold outer_body at 2. cbn [emplace_back fst snd].
    rewrite (middle_loop xss done1 []). cbn [app].
    rewrite IH, <- app_assoc. reflexivity.
Qed.

(** X14.  The three nested loops of [seq3d::test] are a deep copy: for
    every input, also an empty one or one with empty or ragged inner
    containers, the vector of vectors they build has the shape and the
    elements of the input; so [summarize_values] gives on the copy what it
    gives on the original, and is undefined on both or on neither. *)
Theorem copy_loops_deep_copy (values : out_t float) :
  copy_loops float values = values /\
  summarize_values float (copy_loops float values)
  = summarize_values float values.
Proof.
  assert (E : copy_loops float values = values).
  { rewrite copy_loops_bodies. apply outer_loop. }
  split; [exact E | rewrite E; reflexivity].
Qed.

End Loops.

(** The two tests that involve no library conversion return the element at
    index 1, respectively [1][1][1], of the values computed. *)
Example seq1d_test_value (float : Type) (literal : string -> float) :
  seq1d.test float literal = Some (literal "1"%string).
Proof. reflexivity. Qed.

Example seq3d_test_value (float : Type) (literal : string -> float) :
  seq3d.test float literal = Some (literal "55.5f"%string).
Proof. reflexivity. Qed.

End DeepCopyFacts.
